(** * Fixit: the linting pipeline of [src/fixit/api.py]

    A shallow embedding of [print_result], [_make_result], [fixit_bytes],
    [fixit_file], [_fixit_file_wrapper] and [fixit_paths].

    Python generators are embedded as finite traces ([Gen]): the values a
    generator yields, in order, ended by a normal return or by the
    exception it raises.  [try ... except Exception], [for ... in],
    [yield from] and [list(...)] are combinators over these traces. *)

From Stdlib Require Import List String ZArith Bool.
From Stdlib Require Import Permutation DecimalString.
Import ListNotations.
Local Open Scope string_scope.
Local Open Scope list_scope.

(** ** Python runtime *)

Module Py.

(** An instance of [Exception] (or of one of its subclasses): the name of
    its class and what [str(error)] renders. *)
Record Exception : Type := mkException {
  exc_class : string;
  exc_str : string
}.

(** Everything [raise] can throw.  [Exception] is one of the four direct
    subclasses of [BaseException]; the other three are not caught by
    [except Exception]. *)
Inductive BaseException : Type :=
| Exc (error : Exception)
| KeyboardInterrupt
| SystemExit
| GeneratorExit.

(** The result of a call that returns a value or raises. *)
Inductive outcome (A : Type) : Type :=
| Returned (a : A)
| Raised (e : BaseException).
Arguments Returned {A} a.
Arguments Raised {A} e.

(** A generator with items of type [Y], run to its end: each [Yield] is one
    value handed to the consumer, [Ret] is the normal end of the body
    (StopIteration), [Raise] an exception leaving the generator. *)
Inductive Gen (Y R : Type) : Type :=
| Ret (r : R)
| Yield (y : Y) (rest : Gen Y R)
| Raise (e : BaseException).
Arguments Ret {Y R} r.
Arguments Yield {Y R} y rest.
Arguments Raise {Y R} e.

(** Sequencing of statements in a generator body. *)
Fixpoint bind {Y R S : Type} (g : Gen Y R) (k : R -> Gen Y S) : Gen Y S :=
  match g with
  | Ret r => k r
  | Yield y rest => Yield y (bind rest k)
  | Raise e => Raise e
  end.

(** A plain call inside a generator body. *)
Definition call {Y R : Type} (o : outcome R) : Gen Y R :=
  match o with
  | Returned r => Ret r
  | Raised e => Raise e
  end.

(** [for x in source: body x] inside a generator body. *)
Fixpoint for_in {X Y : Type} (source : Gen X unit) (body : X -> Gen Y unit)
  : Gen Y unit :=
  match source with
  | Ret _ => Ret tt
  | Yield x rest => bind (body x) (fun _ => for_in rest body)
  | Raise e => Raise e
  end.

(** [try: body except Exception as error: handler error]. *)
Fixpoint try_except {Y R : Type} (body : Gen Y R)
  (handler : Exception -> Gen Y R) : Gen Y R :=
  match body with
  | Ret r => Ret r
  | Yield y rest => Yield y (try_except rest handler)
  | Raise (Exc error) => handler error
  | Raise e => Raise e
  end.

(** [yield from items] for a list. *)
Fixpoint yield_from_list {Y : Type} (items : list Y) : Gen Y unit :=
  match items with
  | [] => Ret tt
  | y :: rest => Yield y (yield_from_list rest)
  end.

(** [list(g)]: all items when the generator ends normally, the exception
    when it raises (the items collected so far are lost). *)
Fixpoint list_ {Y R : Type} (g : Gen Y R) : outcome (list Y) :=
  match g with
  | Ret _ => Returned []
  | Yield y rest =>
      match list_ rest with
      | Returned ys => Returned (y :: ys)
      | Raised e => Raised e
      end
  | Raise e => Raised e
  end.

(** What the consumer has received when the generator is exhausted,
    whether it ended normally or not. *)
Fixpoint yielded {Y R : Type} (g : Gen Y R) : list Y :=
  match g with
  | Ret _ => []
  | Yield y rest => y :: yielded rest
  | Raise _ => []
  end.

(** The generator ends without raising. *)
Fixpoint completes {Y R : Type} (g : Gen Y R) : bool :=
  match g with
  | Ret _ => true
  | Yield _ rest => completes rest
  | Raise _ => false
  end.

(** [isinstance(e, Exception)]. *)
Definition is_Exception (e : BaseException) : bool :=
  match e with
  | Exc _ => true
  | _ => false
  end.

(** The generator ends normally or by raising an [Exception]. *)
Fixpoint ends_in_Exception {Y R : Type} (g : Gen Y R) : bool :=
  match g with
  | Ret _ => true
  | Yield _ rest => ends_in_Exception rest
  | Raise e => is_Exception e
  end.

(** The trace that yields [items] and then goes on as [stop]. *)
Definition yields {Y R : Type} (items : list Y) (stop : Gen Y R) : Gen Y R :=
  fold_right (@Yield Y R) stop items.

Definition yield {Y : Type} (y : Y) : Gen Y unit := Yield y (Ret tt).

(** [yield from g] is [g] itself: every item and the final outcome are
    forwarded unchanged. *)
Definition yield_from {Y R : Type} (g : Gen Y R) : Gen Y R := g.

(** [str(n)] for an int. *)
Definition str_int (n : Z) : string := NilZero.string_of_int (Z.to_int n).

End Py.
Import Py.

Declare Scope gen_scope.
Delimit Scope gen_scope with gen.
Notation "x <- c ;; k" := (bind c (fun x => k))
  (at level 100, c at next level, right associativity) : gen_scope.
Notation "c ;;; k" := (bind c (fun _ => k))
  (at level 100, right associativity) : gen_scope.

(** ** Types of [fixit.ftypes] *)

Definition Path : Type := string.
Definition FileContent : Type := list Byte.byte.

(** Modelled from the spec: [ftypes.py] is not among the sources; a
    position is a (line, column) pair. *)
Record CodePosition : Type := mkCodePosition {
  line : Z;
  column : Z
}.

(** Modelled from the spec: a span between two positions. *)
Record CodeRange : Type := mkCodeRange {
  start : CodePosition;
  end_ : CodePosition
}.

(** Modelled from the spec: the rule that fired, where, and its message. *)
Record LintViolation : Type := mkLintViolation {
  rule_name : string;
  range : CodeRange;
  message : string
}.

(** Modelled from the spec: the rules enabled and disabled for a file and
    the rule-specific parameters.  The pipeline reads [enable] and
    [disable] only. *)
Record Config : Type := mkConfig {
  enable : list string;
  disable : list string;
  options : list (string * list (string * string))
}.

(** Modelled from the spec: the unit of output, [Result(path, violation,
    error=None)], with [error] a pair of the caught [Exception] and the
    rendered traceback. *)
Record Result : Type := mkResult {
  path : Path;
  violation : option LintViolation;
  error : option (Exception * string)
}.

(** ** [click.secho] *)

(** One call [click.secho(text, fg=colour)]: one line of output. *)
Record Echo : Type := secho {
  text : string;
  fg : string
}.

(** ** [print_result] *)

(** The function prints and returns [None]; its value here is what it
    wrote.  A [LintViolation] and a pair are truthy, so both tests are
    tests against [None]. *)
Definition print_result (result : Result) (debug : bool) : list Echo :=
  let path := path result in
  match violation result with
  | Some v =>
      let rule_name := rule_name v in
      let start_line := line (start (range v)) in
      let start_col := column (start (range v)) in
      let message := message v in
      [secho (path ++ "@" ++ str_int start_line ++ ":" ++ str_int start_col
                   ++ " " ++ rule_name ++ ": " ++ message) "yellow"]
  | None =>
      match error result with
      | Some (error, tb) =>
          if debug
          then [secho (path ++ ": " ++ exc_str error ++ ": " ++ tb) "red"]
          else [secho (path ++ ": " ++ exc_str error) "red"]
      | None => []
      end
  end.

(** ** The collaborators of the pipeline *)

(** The function whose [except] clause renders the traceback: the text of
    [traceback.format_exc()] depends on the frame that caught the error. *)
Inductive frame : Type :=
| in_make_result
| in_fixit_file.

(** What [api.py] imports and calls but does not define: [pathlib],
    [fixit.config], [fixit.engine], [traceback] and [trailrunner], for one
    state of the file system.  [collect_violations] and [walk] are
    generators; [schedule] is the order in which [trailrunner.run_iter]
    hands back the paths it was given. *)
Record Collaborators (LintRule : Type) : Type := mkCollaborators {
  resolve : Path -> outcome Path;
  read_bytes : Path -> outcome FileContent;
  generate_config : Path -> outcome Config;
  collect_rules : list string -> list string -> outcome (list LintRule);
  collect_violations :
    FileContent -> list LintRule -> Config -> Gen LintViolation unit;
  format_exc : frame -> Exception -> string;
  walk : Path -> Gen Path unit;
  schedule : list Path -> list Path
}.
Arguments mkCollaborators {LintRule}.
Arguments resolve {LintRule} _ _.
Arguments read_bytes {LintRule} _ _.
Arguments generate_config {LintRule} _ _.
Arguments collect_rules {LintRule} _ _ _.
Arguments collect_violations {LintRule} _ _ _ _.
Arguments format_exc {LintRule} _ _ _.
Arguments walk {LintRule} _ _.
Arguments schedule {LintRule} _ _.

(** [run_iter] returns every path it was given, each once. *)
Definition fair_schedule {LintRule : Type} (W : Collaborators LintRule) : Prop :=
  forall paths, Permutation (schedule W paths) paths.

(** ** The pipeline *)

Section Pipeline.
Context {LintRule : Type} (W : Collaborators LintRule).
Local Open Scope gen_scope.

(** One result per violation; an [Exception] raised while iterating
    becomes a last result.  ([logger.debug] writes to the log only.) *)
Definition _make_result (path : Path) (violations : Gen LintViolation unit)
  : Gen Result unit :=
  try_except
    (for_in violations (fun violation =>
       yield (mkResult path (Some violation) None)))
    (fun error =>
       yield (mkResult path None
                (Some (error, format_exc W in_make_result error)))).

(** Lint raw bytes content representing a single path, using the given
    configuration. *)
Definition fixit_bytes (path : Path) (content : FileContent) (config : Config)
  : Gen Result unit :=
  rules <- call (collect_rules W (enable config) (disable config)) ;;
  yield_from (_make_result path (collect_violations W content rules config)).

(** Lint a single file on disk.  [path.resolve()] comes before the [try]. *)
Definition fixit_file (path : Path) : Gen Result unit :=
  path <- call (resolve W path) ;;
  try_except
    (content <- call (read_bytes W path) ;;
     config <- call (generate_config W path) ;;
     yield_from (fixit_bytes path content config))
    (fun error =>
       yield (mkResult path None
                (Some (error, format_exc W in_fixit_file error)))).

(** [list(fixit_file(path))], run inside a worker. *)
Definition _fixit_file_wrapper (path : Path) : outcome (list Result) :=
  list_ (fixit_file path).

(** [trailrunner.run_iter(paths, func)]: pairs of a path and the value of
    [func] on it; an exception raised by [func] is raised again when its
    result is taken.  The pool itself is taken to work: what a worker
    returns reaches the parent as it is, and a failure of the dispatch (a
    broken pool, a result that cannot be sent back) is outside this
    model. *)
Fixpoint run_each {T : Type} (func : Path -> outcome T) (paths : list Path)
  : Gen (Path * T) unit :=
  match paths with
  | [] => Ret tt
  | path :: rest =>
      r <- call (func path) ;; yield (path, r) ;;; run_each func rest
  end.

Definition run_iter {T : Type} (paths : list Path) (func : Path -> outcome T)
  : Gen (Path * T) unit :=
  run_each func (schedule W paths).

(** The loop [for path in paths: expanded_paths.extend(walk(path))]. *)
Fixpoint extend_walks (paths : list Path) (expanded_paths : list Path)
  : outcome (list Path) :=
  match paths with
  | [] => Returned expanded_paths
  | path :: rest =>
      match list_ (walk W path) with
      | Returned found => extend_walks rest (expanded_paths ++ found)
      | Raised e => Raised e
      end
  end.

(** Lint multiple files or directories, recursively expanding each path.
    The second [match] is [len(expanded_paths) == 1] with
    [expanded_paths[0]] the only element. *)
Definition fixit_paths (paths : list Path) : Gen Result unit :=
  match paths with
  | [] => Ret tt
  | _ :: _ =>
      expanded_paths <- call (extend_walks paths []) ;;
      match expanded_paths with
      | [only] => yield_from (fixit_file only)
      | _ =>
          for_in (run_iter expanded_paths _fixit_file_wrapper)
            (fun '(_, results) => yield_from_list results)
      end
  end.

(** The two results the pipeline builds: [Result(path, violation)] and
    [Result(path, violation=None, error=(error, format_exc()))]. *)
Definition violation_result (path : Path) (v : LintViolation) : Result :=
  mkResult path (Some v) None.

Definition error_result (where_ : frame) (path : Path) (error : Exception)
  : Result :=
  mkResult path None (Some (error, format_exc W where_ error)).

(** What the caller of [fixit_paths] prints: [print_result] on every
    result received. *)
Definition report (debug : bool) (results : Gen Result unit) : list Echo :=
  flat_map (fun result => print_result result debug) (yielded results).

(** The files one after the other, in the given order, without workers:
    [for path in order: yield from fixit_file(path)]. *)
Fixpoint sequential (order : list Path) : Gen Result unit :=
  match order with
  | [] => Ret tt
  | path :: rest => fixit_file path ;;; sequential rest
  end.
End Pipeline.

(** The lists the workers return, one whole list after the other; the
    exception of a worker ends the stream where its list would start. *)
Fixpoint flattened (groups : list (outcome (list Result))) : Gen Result unit :=
  match groups with
  | [] => Ret tt
  | Returned results :: rest => yields results (flattened rest)
  | Raised e :: _ => Raise e
  end.

(** ** Predicates on results *)

(** Exactly one of [violation] and [error] is set. *)
Definition exactly_one (r : Result) : bool :=
  match violation r, error r with
  | Some _, None => true
  | None, Some _ => true
  | _, _ => false
  end.

Definition has_violation (r : Result) : bool :=
  match violation r with Some _ => true | None => false end.

(** ** A small repository to run the pipeline on

    [a.py] has two violations, [b.py] cannot be read, the collector crashes
    on [c.py] after one violation, [d.py] is clean, the configuration of
    [e.py] is malformed and the one of [f.py] enables a rule that does not
    exist. *)

Module Demo.

Definition root : string := "/repo/".

Definition no_such_file : Exception :=
  mkException "FileNotFoundError" "[Errno 2] No such file or directory".
Definition bad_config : Exception :=
  mkException "ConfigError" "malformed pyproject.toml".
Definition bad_rule : Exception :=
  mkException "CollectionError" "could not import rule(s) nosuch".
Definition parse_failure : Exception :=
  mkException "ParserSyntaxError" "Syntax Error @ 9:1.".

Definition at_line (l c : Z) : CodeRange :=
  mkCodeRange (mkCodePosition l c) (mkCodePosition l (c + 1)).

Definition v3 : LintViolation :=
  mkLintViolation "UseFstring" (at_line 3 0) "Use f-strings".
Definition v7 : LintViolation :=
  mkLintViolation "NoAssertTrue" (at_line 7 4) "Use assert directly".

Definition demo_read (p : Path) : outcome FileContent :=
  if String.eqb p "/repo/b.py" then Raised (Exc no_such_file)
  else if String.eqb p "/repo/a.py" then Returned [Byte.x61]
  else if String.eqb p "/repo/c.py" then Returned [Byte.x63]
  else Returned [].

Definition demo_config (p : Path) : outcome Config :=
  if String.eqb p "/repo/e.py" then Raised (Exc bad_config)
  else if String.eqb p "/repo/f.py" then Returned (mkConfig ["nosuch"] [] [])
  else Returned (mkConfig ["fixit.rules"] [] []).

Definition demo_rules (enabled disabled : list string) : outcome (list string) :=
  match enabled with
  | ["nosuch"] => Raised (Exc bad_rule)
  | _ => Returned enabled
  end.

Definition demo_collect (content : FileContent) (rules : list string)
  (config : Config) : Gen LintViolation unit :=
  match content with
  | [Byte.x61] => Yield v3 (Yield v7 (Ret tt))
  | [Byte.x63] => Yield v3 (Raise (Exc parse_failure))
  | _ => Ret tt
  end.

Definition demo_trace (f : frame) (e : Exception) : string :=
  ("Traceback (most recent call last): " ++ exc_class e ++ ": " ++ exc_str e)%string.

(** Directories are not expanded here: [walk] gives back the path. *)
Definition world : Collaborators string :=
  mkCollaborators
    (fun p => Returned (root ++ p)%string)
    demo_read demo_config demo_rules demo_collect demo_trace
    (fun p => Yield p (Ret tt))
    (fun paths => rev paths).

(** The same repository with [walk] finding nothing. *)
Definition empty_world : Collaborators string :=
  mkCollaborators
    (fun p => Returned (root ++ p)%string)
    demo_read demo_config demo_rules demo_collect demo_trace
    (fun p => Ret tt)
    (fun paths => paths).

(** A second run on the same repository: other workers, other frames in
    the tracebacks, the same rules and collector. *)
Definition rerun_world : Collaborators string :=
  mkCollaborators
    (fun p => Returned (root ++ p)%string)
    demo_read demo_config demo_rules demo_collect
    (fun f e => ("Traceback (rerun): " ++ exc_class e)%string)
    (fun p => Yield p (Ret tt))
    (fun paths => paths).

End Demo.

(** ** Further notions *)

Definition has_error (r : Result) : bool :=
  match error r with Some _ => true | None => false end.

(** In a list of paths, the occurrences of every path are next to each
    other: an element is followed by an equal one or does not come back. *)
Fixpoint contiguous (l : list Path) : bool :=
  match l with
  | [] => true
  | p :: rest =>
      match rest with
      | [] => true
      | q :: _ => String.eqb p q || negb (existsb (String.eqb p) rest)
      end && contiguous rest
  end.

(** The same collaborators with the workers finishing in another order. *)
Definition reschedule {LintRule : Type} (W : Collaborators LintRule)
  (order : list Path -> list Path) : Collaborators LintRule :=
  mkCollaborators (resolve W) (read_bytes W) (generate_config W)
    (collect_rules W) (collect_violations W) (format_exc W) (walk W) order.

(** ** A repository with harder failures

    [loop.py] is a symbolic link to itself, so that [resolve] raises; the
    run is interrupted from the keyboard while the collector is in [k.py];
    the directory [locked] cannot be listed once [a.py] was found in it;
    [pkg] holds [a.py] and [d.py]. *)

Module Scenes.

Definition symlink_loop : Exception :=
  mkException "RuntimeError" "Symlink loop from '/repo/loop.py'".
Definition permission_denied : Exception :=
  mkException "PermissionError" "[Errno 13] Permission denied: 'locked'".

Definition scene_resolve (p : Path) : outcome Path :=
  if String.eqb p "loop.py" then Raised (Exc symlink_loop)
  else Returned (Demo.root ++ p)%string.

Definition scene_read (p : Path) : outcome FileContent :=
  if String.eqb p "/repo/k.py" then Returned [Byte.x6b]
  else Demo.demo_read p.

Definition scene_collect (content : FileContent) (rules : list string)
  (config : Config) : Gen LintViolation unit :=
  match content with
  | [Byte.x6b] => Yield Demo.v3 (Raise KeyboardInterrupt)
  | _ => Demo.demo_collect content rules config
  end.

Definition scene_walk (p : Path) : Gen Path unit :=
  if String.eqb p "locked" then Yield "a.py" (Raise (Exc permission_denied))
  else if String.eqb p "pkg" then Yield "a.py" (Yield "d.py" (Ret tt))
  else Yield p (Ret tt).

Definition world : Collaborators string :=
  mkCollaborators
    scene_resolve scene_read Demo.demo_config Demo.demo_rules scene_collect
    Demo.demo_trace scene_walk
    (fun paths => paths).

End Scenes.

(** * Laws of the generator combinators *)

Section GenLaws.
Context {X Y R S : Type}.

Lemma bind_yields (items : list Y) (g : Gen Y R) (k : R -> Gen Y S) :
  bind (yields items g) k = yields items (bind g k).
Proof.
  induction items as [|y items IH]; simpl; [reflexivity|].
  now rewrite IH.
Qed.

Lemma try_except_yields (items : list Y) (g : Gen Y R) handler :
  try_except (yields items g) handler = yields items (try_except g handler).
Proof.
  induction items as [|y items IH]; simpl; [reflexivity|].
  now rewrite IH.
Qed.

Lemma for_in_yields (f : X -> Y) (items : list X) (stop : Gen X unit) :
  for_in (yields items stop) (fun x => yield (f x))
  = yields (map f items) (for_in stop (fun x => yield (f x))).
Proof.
  induction items as [|x items IH]; simpl; [reflexivity|].
  now rewrite IH.
Qed.

Lemma yields_app (l1 l2 : list Y) (g : Gen Y R) :
  yields (l1 ++ l2) g = yields l1 (yields l2 g).
Proof. unfold yields. apply fold_right_app. Qed.

Lemma yielded_yields (items : list Y) (g : Gen Y R) :
  yielded (yields items g) = (items ++ yielded g)%list.
Proof.
  induction items as [|y items IH]; simpl; [reflexivity|].
  now rewrite IH.
Qed.

Lemma completes_yields (items : list Y) (g : Gen Y R) :
  completes (yields items g) = completes g.
Proof.
  induction items as [|y items IH]; simpl; [reflexivity|].
  exact IH.
Qed.

Lemma yield_from_list_yields (items : list Y) :
  yield_from_list items = yields items (Ret tt).
Proof.
  induction items as [|y items IH]; simpl; [reflexivity|].
  now rewrite IH.
Qed.

(** A generator over [unit] that ends normally is the list of its items. *)
Lemma completes_yield_from_list (g : Gen Y unit) :
  completes g = true -> g = yield_from_list (yielded g).
Proof.
  induction g as [[]|y rest IH|e]; simpl; intros H.
  - reflexivity.
  - now rewrite <- IH.
  - discriminate.
Qed.

Lemma completes_list_ (g : Gen Y R) :
  completes g = true -> list_ g = Returned (yielded g).
Proof.
  induction g as [r|y rest IH|e]; simpl; intros H.
  - reflexivity.
  - now rewrite IH.
  - discriminate.
Qed.

Lemma list_returned_yielded (g : Gen Y R) (items : list Y) :
  list_ g = Returned items -> yielded g = items.
Proof.
  revert items.
  induction g as [r|y rest IH|e]; simpl; intros items H.
  - congruence.
  - destruct (list_ rest) as [ys|e]; [|discriminate].
    inversion H; subst. now rewrite (IH ys eq_refl).
  - discriminate.
Qed.

Lemma yielded_yield_from_list (items : list Y) :
  yielded (yield_from_list items) = items.
Proof.
  induction items as [|y items IH]; simpl; [reflexivity|].
  now rewrite IH.
Qed.

(** How a property of every item goes through the combinators. *)
Variable P : Y -> Prop.

Lemma Forall_yielded_call (o : outcome R) :
  Forall P (yielded (@call Y R o)).
Proof. destruct o; constructor. Qed.

Lemma Forall_yielded_bind (g : Gen Y R) (k : R -> Gen Y S) :
  Forall P (yielded g) ->
  (forall r, Forall P (yielded (k r))) ->
  Forall P (yielded (bind g k)).
Proof.
  intros Hg Hk.
  induction g as [r|y rest IH|e]; simpl in *.
  - apply Hk.
  - inversion Hg; subst. constructor; auto.
  - constructor.
Qed.

Lemma Forall_yielded_try_except (g : Gen Y R) handler :
  Forall P (yielded g) ->
  (forall error, Forall P (yielded (handler error))) ->
  Forall P (yielded (try_except g handler)).
Proof.
  intros Hg Hh.
  induction g as [r|y rest IH|e]; simpl in *.
  - constructor.
  - inversion Hg; subst. constructor; auto.
  - destruct e; simpl; auto.
Qed.

End GenLaws.

Lemma Forall_yielded_for_in {X Y : Type} (P : Y -> Prop) (Q : X -> Prop)
  (source : Gen X unit) (body : X -> Gen Y unit) :
  Forall Q (yielded source) ->
  (forall x, Q x -> Forall P (yielded (body x))) ->
  Forall P (yielded (for_in source body)).
Proof.
  intros Hs Hb.
  induction source as [r|x rest IH|e]; simpl in *.
  - constructor.
  - inversion Hs; subst. apply Forall_yielded_bind; auto.
  - constructor.
Qed.

(** * The single-file pipeline *)

Section SingleFile.
Context {LintRule : Type} (W : Collaborators LintRule).

Lemma make_result_yields path vs stop :
  _make_result W path (yields vs stop)
  = yields (map (violation_result path) vs) (_make_result W path stop).
Proof.
  unfold _make_result.
  rewrite (for_in_yields (violation_result path)).
  now rewrite try_except_yields.
Qed.

(** Up to the call of [fixit_bytes], [fixit_file] on a readable file with
    a configuration is [fixit_bytes] under the outer handler. *)
Lemma fixit_file_readable file path content config :
  resolve W file = Returned path ->
  read_bytes W path = Returned content ->
  generate_config W path = Returned config ->
  fixit_file W file
  = try_except (fixit_bytes W path content config)
      (fun error => yield (error_result W in_fixit_file path error)).
Proof.
  intros Hres Hread Hcfg. unfold fixit_file.
  rewrite Hres; simpl. rewrite Hread; simpl. now rewrite Hcfg.
Qed.

(** What [_make_result] produces never reaches the outer handler of
    [fixit_file] as an [Exception]. *)
Lemma try_except_make_result path violations handler :
  try_except (_make_result W path violations) handler
  = _make_result W path violations.
Proof.
  unfold _make_result.
  induction violations as [[]|v rest IH|e]; simpl.
  - reflexivity.
  - now rewrite IH.
  - destruct e; reflexivity.
Qed.

Lemma fixit_file_collected file path content config rules :
  resolve W file = Returned path ->
  read_bytes W path = Returned content ->
  generate_config W path = Returned config ->
  collect_rules W (enable config) (disable config) = Returned rules ->
  fixit_file W file
  = _make_result W path (collect_violations W content rules config).
Proof.
  intros Hres Hread Hcfg Hrules.
  rewrite (fixit_file_readable _ _ _ _ Hres Hread Hcfg).
  unfold fixit_bytes. rewrite Hrules; simpl. unfold yield_from.
  apply try_except_make_result.
Qed.
(** When the collaborators raise nothing but [Exception]s, [fixit_file]
    raises nothing at all. *)
Lemma make_result_completes path violations :
  ends_in_Exception violations = true ->
  completes (_make_result W path violations) = true.
Proof.
  unfold _make_result.
  induction violations as [[]|v rest IH|e]; simpl; auto.
  destruct e; simpl; auto.
Qed.

Lemma fixit_file_completes file path :
  resolve W file = Returned path ->
  (forall e, read_bytes W path = Raised e -> is_Exception e = true) ->
  (forall e, generate_config W path = Raised e -> is_Exception e = true) ->
  (forall config e,
      collect_rules W (enable config) (disable config) = Raised e ->
      is_Exception e = true) ->
  (forall content rules config,
      ends_in_Exception (collect_violations W content rules config) = true) ->
  completes (fixit_file W file) = true.
Proof.
  intros Hres Hread Hcfg Hrules Hcollect.
  unfold fixit_file. rewrite Hres; simpl.
  destruct (read_bytes W path) as [content|e] eqn:Er; simpl.
  - destruct (generate_config W path) as [config|e] eqn:Ec; simpl.
    + unfold yield_from at 1. unfold fixit_bytes.
      destruct (collect_rules W (enable config) (disable config))
        as [rules|e] eqn:Eu; simpl.
      * unfold yield_from. rewrite try_except_make_result.
        apply make_result_completes, Hcollect.
      * specialize (Hrules _ _ Eu). destruct e; try discriminate. reflexivity.
    + specialize (Hcfg _ eq_refl). destruct e; try discriminate. reflexivity.
  - specialize (Hread _ eq_refl). destruct e; try discriminate. reflexivity.
Qed.
End SingleFile.

(** C1: when the collector of a file yields the violations [vs] and then
    raises the [Exception] [error], [_make_result], and with it
    [fixit_bytes] and [fixit_file], yield one result per violation, in the
    collector's order, then one result carrying the error, and end
    normally: nothing is raised to the caller. *)
Theorem collector_failure_contained :
  forall (LintRule : Type) (W : Collaborators LintRule)
         (file path : Path) (content : FileContent) (config : Config)
         (rules : list LintRule) (vs : list LintViolation) (error : Exception),
    resolve W file = Returned path ->
    read_bytes W path = Returned content ->
    generate_config W path = Returned config ->
    collect_rules W (enable config) (disable config) = Returned rules ->
    collect_violations W content rules config = yields vs (Raise (Exc error)) ->
    let expected :=
      yields (map (violation_result path) vs
              ++ [error_result W in_make_result path error]) (Ret tt) in
    _make_result W path (yields vs (Raise (Exc error))) = expected
    /\ fixit_bytes W path content config = expected
    /\ fixit_file W file = expected
    /\ yielded (fixit_file W file)
       = (map (violation_result path) vs
          ++ [error_result W in_make_result path error])%list
    /\ completes (fixit_file W file) = true.
Proof.
  intros LintRule W file path content config rules vs error
         Hres Hread Hcfg Hrules Hcollect expected.
  assert (Hmake : _make_result W path (yields vs (Raise (Exc error))) = expected).
  { rewrite make_result_yields. unfold expected. now rewrite yields_app. }
  assert (Hfile : fixit_file W file = expected).
  { rewrite (fixit_file_collected W _ _ _ _ _ Hres Hread Hcfg Hrules).
    now rewrite Hcollect. }
  repeat split.
  - exact Hmake.
  - unfold fixit_bytes. rewrite Hrules; simpl. unfold yield_from.
    now rewrite Hcollect.
  - exact Hfile.
  - rewrite Hfile. unfold expected. rewrite yielded_yields; simpl.
    now rewrite app_nil_r.
  - rewrite Hfile. unfold expected. now rewrite completes_yields.
Qed.

Lemma collector_failure_contained_witness :
  fixit_file Demo.world "c.py"
  = Yield (violation_result "/repo/c.py" Demo.v3)
      (Yield (error_result Demo.world in_make_result "/repo/c.py"
                Demo.parse_failure)
         (Ret tt)).
Proof.
  apply (collector_failure_contained string Demo.world "c.py" "/repo/c.py"
           [Byte.x63] (mkConfig ["fixit.rules"] [] []) ["fixit.rules"]
           [Demo.v3] Demo.parse_failure);
    reflexivity.
Defined.

(** C3: when reading the bytes of the file raises an [Exception], or the
    bytes are read and resolving the configuration raises one,
    [fixit_file] yields one result, with [error] set and no [violation],
    and ends there. *)
Theorem read_or_config_failure_one_error :
  forall (LintRule : Type) (W : Collaborators LintRule)
         (file path : Path) (failure : Exception),
    resolve W file = Returned path ->
    read_bytes W path = Raised (Exc failure)
    \/ (exists content, read_bytes W path = Returned content
                        /\ generate_config W path = Raised (Exc failure)) ->
    fixit_file W file = Yield (error_result W in_fixit_file path failure) (Ret tt)
    /\ violation (error_result W in_fixit_file path failure) = None
    /\ error (error_result W in_fixit_file path failure) <> None.
Proof.
  intros LintRule W file path failure Hres Hfail.
  split; [|split; simpl; congruence].
  unfold fixit_file. rewrite Hres; simpl.
  destruct Hfail as [Hread | [content [Hread Hcfg]]].
  - now rewrite Hread.
  - rewrite Hread; simpl. now rewrite Hcfg.
Qed.

Lemma read_or_config_failure_one_error_witness :
  fixit_file Demo.world "b.py"
  = Yield (error_result Demo.world in_fixit_file "/repo/b.py" Demo.no_such_file)
      (Ret tt)
  /\ fixit_file Demo.world "e.py"
     = Yield (error_result Demo.world in_fixit_file "/repo/e.py" Demo.bad_config)
         (Ret tt).
Proof.
  split.
  - apply (read_or_config_failure_one_error string Demo.world "b.py"
             "/repo/b.py" Demo.no_such_file).
    + reflexivity.
    + left. reflexivity.
  - apply (read_or_config_failure_one_error string Demo.world "e.py"
             "/repo/e.py" Demo.bad_config).
    + reflexivity.
    + right. exists []. split; reflexivity.
Defined.

(** C5: for a file that is read, configured and given its rules without
    failure and whose collector yields nothing, [fixit_file] yields no
    result at all: the sequence just ends. *)
Theorem clean_file_no_results :
  forall (LintRule : Type) (W : Collaborators LintRule)
         (file path : Path) (content : FileContent) (config : Config)
         (rules : list LintRule),
    resolve W file = Returned path ->
    read_bytes W path = Returned content ->
    generate_config W path = Returned config ->
    collect_rules W (enable config) (disable config) = Returned rules ->
    collect_violations W content rules config = Ret tt ->
    fixit_file W file = Ret tt
    /\ fixit_bytes W path content config = Ret tt
    /\ yielded (fixit_file W file) = [].
Proof.
  intros LintRule W file path content config rules
         Hres Hread Hcfg Hrules Hclean.
  assert (Hfile : fixit_file W file = Ret tt).
  { rewrite (fixit_file_collected W _ _ _ _ _ Hres Hread Hcfg Hrules).
    now rewrite Hclean. }
  repeat split.
  - exact Hfile.
  - unfold fixit_bytes. rewrite Hrules; simpl. now rewrite Hclean.
  - now rewrite Hfile.
Qed.

Lemma clean_file_no_results_witness :
  fixit_file Demo.world "d.py" = Ret tt.
Proof.
  apply (clean_file_no_results string Demo.world "d.py" "/repo/d.py"
           [] (mkConfig ["fixit.rules"] [] []) ["fixit.rules"]);
    reflexivity.
Defined.

(** C10: when [collect_rules] raises an [Exception] for a configuration,
    [fixit_bytes] raises it to its caller and yields nothing, while
    [fixit_file] on a file with that configuration yields one result with
    the error and ends normally. *)
Theorem rule_failure_contained_by_fixit_file_only :
  forall (LintRule : Type) (W : Collaborators LintRule)
         (file path : Path) (content : FileContent) (config : Config)
         (error : Exception),
    collect_rules W (enable config) (disable config) = Raised (Exc error) ->
    resolve W file = Returned path ->
    read_bytes W path = Returned content ->
    generate_config W path = Returned config ->
    fixit_bytes W path content config = Raise (Exc error)
    /\ fixit_file W file
       = Yield (error_result W in_fixit_file path error) (Ret tt).
Proof.
  intros LintRule W file path content config error Hrules Hres Hread Hcfg.
  assert (Hbytes : fixit_bytes W path content config = Raise (Exc error)).
  { unfold fixit_bytes. now rewrite Hrules. }
  split; [exact Hbytes|].
  rewrite (fixit_file_readable W _ _ _ _ Hres Hread Hcfg).
  now rewrite Hbytes.
Qed.

Lemma rule_failure_contained_by_fixit_file_only_witness :
  fixit_bytes Demo.world "/repo/f.py" [] (mkConfig ["nosuch"] [] [])
  = Raise (Exc Demo.bad_rule)
  /\ fixit_file Demo.world "f.py"
     = Yield (error_result Demo.world in_fixit_file "/repo/f.py" Demo.bad_rule)
         (Ret tt).
Proof.
  apply (rule_failure_contained_by_fixit_file_only string Demo.world "f.py"
           "/repo/f.py" [] (mkConfig ["nosuch"] [] []) Demo.bad_rule);
    reflexivity.
Defined.

(** * Every result that is yielded *)

Section YieldedResults.
Context {LintRule : Type} (W : Collaborators LintRule).

Lemma make_result_items p violations :
  Forall (fun r => exactly_one r = true /\ path r = p)
    (yielded (_make_result W p violations)).
Proof.
  unfold _make_result.
  apply Forall_yielded_try_except.
  - apply Forall_yielded_for_in with (Q := fun _ => True).
    + induction (yielded violations); constructor; auto.
    + intros v _. repeat constructor.
  - intros error. repeat constructor.
Qed.

Lemma fixit_file_items file :
  Forall (fun r => exactly_one r = true
                   /\ resolve W file = Returned (path r))
    (yielded (fixit_file W file)).
Proof.
  unfold fixit_file.
  destruct (resolve W file) as [p|e]; simpl; [|constructor].
  apply Forall_yielded_try_except.
  - apply Forall_yielded_bind; [apply Forall_yielded_call|]. intros content.
    apply Forall_yielded_bind; [apply Forall_yielded_call|]. intros config.
    unfold yield_from, fixit_bytes.
    apply Forall_yielded_bind; [apply Forall_yielded_call|]. intros rules.
    unfold yield_from.
    eapply Forall_impl; [|apply make_result_items].
    simpl. intros r [Hone Hpath]. now subst.
  - intros error. repeat constructor.
Qed.

Lemma run_each_items {T : Type} (func : Path -> outcome T) paths :
  Forall (fun pr => func (fst pr) = Returned (snd pr))
    (yielded (run_each func paths)).
Proof.
  induction paths as [|p rest IH]; simpl; [constructor|].
  destruct (func p) as [r|e] eqn:Hp; simpl; [|constructor].
  constructor; [exact Hp | exact IH].
Qed.
End YieldedResults.

(** C2: every result yielded by [fixit_file] carries the resolved path of
    the file and has exactly one of [violation] and [error] set; every
    result yielded by [fixit_paths] carries the resolved path of some file
    and has exactly one of the two set. *)
Theorem yielded_results_well_formed :
  forall (LintRule : Type) (W : Collaborators LintRule),
    (forall file,
        Forall (fun r => exactly_one r = true
                         /\ resolve W file = Returned (path r))
          (yielded (fixit_file W file)))
    /\ (forall paths,
           Forall (fun r => exactly_one r = true
                            /\ exists file, resolve W file = Returned (path r))
             (yielded (fixit_paths W paths))).
Proof.
  intros LintRule W. split; [apply fixit_file_items|].
  intros paths. unfold fixit_paths.
  destruct paths as [|p0 paths0]; [constructor|].
  destruct (extend_walks W (p0 :: paths0) []) as [expanded|e];
    simpl; [|constructor].
  assert (Hone : forall file,
             Forall (fun r => exactly_one r = true
                              /\ exists f, resolve W f = Returned (path r))
               (yielded (fixit_file W file))).
  { intros file. eapply Forall_impl; [|apply fixit_file_items].
    simpl. intros r [H1 H2]. split; [exact H1 | now exists file]. }
  assert (Hmany : forall order,
             Forall (fun r => exactly_one r = true
                              /\ exists f, resolve W f = Returned (path r))
               (yielded (for_in (run_each (_fixit_file_wrapper W) order)
                           (fun '(_, results) => yield_from_list results)))).
  { intros order.
    eapply Forall_yielded_for_in; [apply run_each_items|].
    intros [file results] Hw; simpl in *.
    rewrite yielded_yield_from_list.
    rewrite <- (list_returned_yielded _ _ Hw). apply Hone. }
  destruct expanded as [|only [|second rest]].
  - apply Hmany.
  - apply Hone.
  - apply Hmany.
Qed.

(** * Several files *)

Section ManyFiles.
Context {LintRule : Type} (W : Collaborators LintRule).

Lemma bind_yield_from_list {Y S : Type} (items : list Y)
  (k : unit -> Gen Y S) :
  bind (yield_from_list items) k = yields items (k tt).
Proof.
  induction items as [|y items IH]; simpl; [reflexivity|].
  now rewrite IH.
Qed.

(** The workers' loop is the flattening of the materialized lists. *)
Lemma workers_flattened order :
  for_in (run_each (_fixit_file_wrapper W) order)
    (fun '(_, results) => yield_from_list results)
  = flattened (map (_fixit_file_wrapper W) order).
Proof.
  induction order as [|p rest IH]; simpl; [reflexivity|].
  destruct (_fixit_file_wrapper W p) as [results|e]; simpl; [|reflexivity].
  rewrite bind_yield_from_list. now rewrite IH.
Qed.

(** When every file's sequence ends normally, flattening the lists is
    running the files one after the other. *)
Lemma flattened_sequential order :
  Forall (fun p => completes (fixit_file W p) = true) order ->
  flattened (map (_fixit_file_wrapper W) order) = sequential W order
  /\ yielded (sequential W order)
     = List.concat (map (fun p => yielded (fixit_file W p)) order).
Proof.
  induction 1 as [|p rest Hp Hrest [IH1 IH2]]; simpl; [now split|].
  unfold _fixit_file_wrapper at 1.
  rewrite (completes_list_ _ Hp).
  rewrite (completes_yield_from_list _ Hp) at 2 3.
  rewrite bind_yield_from_list, IH1. split; [reflexivity|].
  now rewrite yielded_yields, IH2.
Qed.

Lemma fixit_paths_expanded p0 paths0 expanded :
  extend_walks W (p0 :: paths0) [] = Returned expanded ->
  fixit_paths W (p0 :: paths0)
  = match expanded with
    | [only] => fixit_file W only
    | _ => flattened (map (_fixit_file_wrapper W) (schedule W expanded))
    end.
Proof.
  intros Hexp. unfold fixit_paths. rewrite Hexp; simpl.
  unfold run_iter, yield_from.
  destruct expanded as [|only [|second rest]];
    try reflexivity; apply workers_flattened.
Qed.
End ManyFiles.

(** A block of equal paths in front of a list where they do not occur
    keeps the list contiguous. *)
Lemma contiguous_block (block rest : list Path) :
  (forall x y, In x block -> In y block -> x = y) ->
  (forall x y, In x block -> In y rest -> x <> y) ->
  contiguous rest = true ->
  contiguous (block ++ rest) = true.
Proof.
  intros Hsame Hother Hrest.
  induction block as [|a block IH]; [exact Hrest|].
  assert (IH' : contiguous (block ++ rest) = true).
  { apply IH.
    - intros x y Hx Hy. apply Hsame; now right.
    - intros x y Hx Hy. apply Hother; [now right | exact Hy]. }
  change (contiguous ((a :: block) ++ rest))
    with (match (block ++ rest)%list with
          | [] => true
          | q :: _ => String.eqb a q
                      || negb (existsb (String.eqb a) (block ++ rest))
          end && contiguous (block ++ rest)).
  rewrite IH', andb_true_r.
  destruct block as [|b block]; simpl.
  - destruct rest as [|q rest']; [reflexivity|].
    apply orb_true_iff. right. apply negb_true_iff.
    destruct (existsb (String.eqb a) (q :: rest')) eqn:Hex; [|reflexivity].
    apply existsb_exists in Hex. destruct Hex as [x [Hin Heq]].
    apply String.eqb_eq in Heq.
    now elim (Hother a x (or_introl eq_refl) Hin).
  - rewrite (Hsame a b (or_introl eq_refl) (or_intror (or_introl eq_refl))).
    now rewrite String.eqb_refl.
Qed.

(** When the entries resolve to different paths, the groups of the entries
    are the groups of the files. *)
Lemma groups_contiguous {LintRule : Type} (W : Collaborators LintRule)
  (order : list Path) :
  NoDup (map (resolve W) order) ->
  contiguous
    (map path (List.concat (map (fun p => yielded (fixit_file W p)) order)))
  = true.
Proof.
  induction order as [|p rest IH]; intros Hnodup; [reflexivity|].
  inversion Hnodup as [|o os Hnotin Hrest]; subst.
  simpl. rewrite map_app. apply contiguous_block.
  - intros x y Hx Hy.
    apply in_map_iff in Hx. destruct Hx as [rx [<- Hrx]].
    apply in_map_iff in Hy. destruct Hy as [ry [<- Hry]].
    pose proof (fixit_file_items W p) as Hitems.
    rewrite Forall_forall in Hitems.
    destruct (Hitems rx Hrx) as [_ Hx]. destruct (Hitems ry Hry) as [_ Hy].
    congruence.
  - intros x y Hx Hy Heq. subst y.
    apply in_map_iff in Hx. destruct Hx as [rx [<- Hrx]].
    apply in_map_iff in Hy. destruct Hy as [ry [Hpath Hry]].
    apply in_concat in Hry. destruct Hry as [group [Hgroup Hry]].
    apply in_map_iff in Hgroup. destruct Hgroup as [p' [<- Hp']].
    pose proof (fixit_file_items W p) as Hitems.
    pose proof (fixit_file_items W p') as Hitems'.
    rewrite Forall_forall in Hitems, Hitems'.
    destruct (Hitems rx Hrx) as [_ Hx]. destruct (Hitems' ry Hry) as [_ Hy].
    apply Hnotin. rewrite Hx, <- Hpath, <- Hy. now apply in_map.
  - now apply IH.
Qed.

(** C4, as the code has it: when the given paths expand to one file,
    [fixit_paths] is [fixit_file] on that file, unchanged.  Otherwise, with
    [run_iter] handing back every entry of the expanded list once, the
    output is the whole lists the workers materialized, one list per entry,
    one after the other, in an order that is a permutation of the entries.
    When moreover every entry's sequence ends normally, this is the
    sequential run of [fixit_file] over the entries in that order, so the
    results of an entry are contiguous and in the order [fixit_file]
    produced them; and when no file is listed twice (the entries resolve to
    different paths) the results of every file are contiguous. *)
Theorem fixit_paths_whole_groups :
  forall (LintRule : Type) (W : Collaborators LintRule)
         (paths expanded : list Path),
    fair_schedule W ->
    extend_walks W paths [] = Returned expanded ->
    (forall only, expanded = [only] -> fixit_paths W paths = fixit_file W only)
    /\ (List.length expanded <> 1%nat ->
        exists order,
          Permutation order expanded
          /\ fixit_paths W paths
             = flattened (map (_fixit_file_wrapper W) order)
          /\ (Forall (fun p => completes (fixit_file W p) = true) expanded ->
              fixit_paths W paths = sequential W order
              /\ yielded (fixit_paths W paths)
                 = List.concat (map (fun p => yielded (fixit_file W p)) order)
              /\ (NoDup (map (resolve W) expanded) ->
                  contiguous (map path (yielded (fixit_paths W paths)))
                  = true))).
Proof.
  intros LintRule W paths expanded Hfair Hexp.
  assert (Hshape :
    fixit_paths W paths
    = match expanded with
      | [only] => fixit_file W only
      | _ => flattened (map (_fixit_file_wrapper W) (schedule W expanded))
      end).
  { destruct paths as [|p0 paths0].
    - simpl in Hexp. inversion Hexp; subst expanded. simpl.
      now rewrite (Permutation_nil (Permutation_sym (Hfair []))).
    - now apply fixit_paths_expanded. }
  split.
  - intros only ->. exact Hshape.
  - intros Hlen. exists (schedule W expanded).
    assert (Hflat : fixit_paths W paths
                    = flattened (map (_fixit_file_wrapper W)
                                   (schedule W expanded))).
    { rewrite Hshape. destruct expanded as [|only [|second rest]];
        try reflexivity. now elim Hlen. }
    split; [apply Hfair|]. split; [exact Hflat|].
    intros Hall.
    assert (Hall' : Forall (fun p => completes (fixit_file W p) = true)
                      (schedule W expanded)).
    { rewrite Forall_forall in *. intros p Hin. apply Hall.
      eapply Permutation_in; [apply Hfair | exact Hin]. }
    destruct (flattened_sequential W _ Hall') as [H1 H2].
    rewrite Hflat, H1. split; [reflexivity|]. split; [exact H2|].
    intros Hnodup. rewrite H2. apply groups_contiguous.
    eapply Permutation_NoDup; [|exact Hnodup].
    apply Permutation_map, Permutation_sym, Hfair.
Qed.

Lemma demo_world_fair : fair_schedule Demo.world.
Proof. intros paths. simpl. apply Permutation_sym, Permutation_rev. Qed.

Lemma fixit_paths_whole_groups_witness :
  fixit_paths Demo.world ["b.py"] = fixit_file Demo.world "b.py"
  /\ exists order,
      Permutation order ["a.py"; "c.py"; "d.py"]
      /\ fixit_paths Demo.world ["a.py"; "c.py"; "d.py"]
         = sequential Demo.world order
      /\ contiguous
           (map path (yielded (fixit_paths Demo.world ["a.py"; "c.py"; "d.py"])))
         = true.
Proof.
  split.
  - apply (proj1 (fixit_paths_whole_groups string Demo.world
                    ["b.py"] ["b.py"] demo_world_fair eq_refl)).
    reflexivity.
  - destruct (proj2 (fixit_paths_whole_groups string Demo.world
                       ["a.py"; "c.py"; "d.py"] ["a.py"; "c.py"; "d.py"]
                       demo_world_fair eq_refl))
      as [order [Hperm [_ Hseq]]].
    + simpl. discriminate.
    + exists order. split; [exact Hperm|].
      destruct Hseq as [Hs [_ Hc]]; [repeat constructor|].
      split; [exact Hs|]. apply Hc.
      repeat constructor; simpl; intuition discriminate.
Defined.

(** C4 as stated fails in two ways.  A file listed twice in the expansion
    is linted twice and its two groups are apart: with [a.py; c.py; a.py]
    handed back in that order and every sequence ending normally, the
    results of [a.py] are not contiguous.  And a file whose sequence raises
    after a result has that result in its sequential sequence and not in
    the output of the workers. *)
Lemma fixit_paths_groups_not_per_file :
  (extend_walks Demo.rerun_world ["a.py"; "c.py"; "a.py"] []
   = Returned ["a.py"; "c.py"; "a.py"]
   /\ forallb (fun p => completes (fixit_file Demo.rerun_world p))
        ["a.py"; "c.py"; "a.py"] = true
   /\ map path (yielded (fixit_paths Demo.rerun_world ["a.py"; "c.py"; "a.py"]))
      = ["/repo/a.py"; "/repo/a.py"; "/repo/c.py"; "/repo/c.py";
         "/repo/a.py"; "/repo/a.py"]
   /\ contiguous
        (map path
           (yielded (fixit_paths Demo.rerun_world ["a.py"; "c.py"; "a.py"])))
      = false)
  /\ (yielded (fixit_file Scenes.world "k.py")
      = [violation_result "/repo/k.py" Demo.v3]
      /\ ~ In (violation_result "/repo/k.py" Demo.v3)
           (yielded (fixit_paths Scenes.world ["a.py"; "k.py"; "d.py"]))).
Proof.
  split.
  - repeat split; reflexivity.
  - split; [reflexivity|].
    simpl. intros [H | [H | []]]; discriminate.
Qed.

(** C6: [fixit_paths] on no paths, and on paths that expand to no file,
    yields nothing and ends normally. *)
Theorem no_paths_no_results :
  forall (LintRule : Type) (W : Collaborators LintRule) (paths : list Path),
    paths = []
    \/ (fair_schedule W /\ extend_walks W paths [] = Returned []) ->
    fixit_paths W paths = Ret tt.
Proof.
  intros LintRule W paths [-> | [Hfair Hexp]]; [reflexivity|].
  destruct paths as [|p0 paths0]; [reflexivity|].
  rewrite (fixit_paths_expanded W _ _ _ Hexp).
  now rewrite (Permutation_nil (Permutation_sym (Hfair []))).
Qed.

Lemma empty_world_fair : fair_schedule Demo.empty_world.
Proof. intros paths. apply Permutation_refl. Qed.

Lemma no_paths_no_results_witness :
  fixit_paths Demo.world [] = Ret tt
  /\ fixit_paths Demo.empty_world ["src"; "tests"] = Ret tt.
Proof.
  split.
  - apply (no_paths_no_results string Demo.world []). left. reflexivity.
  - apply (no_paths_no_results string Demo.empty_world ["src"; "tests"]).
    right. split; [exact empty_world_fair | reflexivity].
Defined.

(** * The reporter *)

(** C7, as the code has it: for a result with [violation] set,
    [print_result] writes the one line [path@line:column rule_name: message]
    from the start of the violation's range; for a result with [error] set
    and [violation] not set, it writes the one line [path: error], or
    [path: error: traceback] when [debug] is true. *)
Theorem print_result_one_line :
  forall (r : Result) (debug : bool),
    (forall v, violation r = Some v ->
       print_result r debug
       = [secho (path r ++ "@" ++ str_int (line (start (range v)))
                   ++ ":" ++ str_int (column (start (range v)))
                   ++ " " ++ rule_name v ++ ": " ++ message v) "yellow"])
    /\ (forall failure tb,
          violation r = None ->
          error r = Some (failure, tb) ->
          print_result r debug
          = [secho (if debug
                    then path r ++ ": " ++ exc_str failure ++ ": " ++ tb
                    else path r ++ ": " ++ exc_str failure) "red"]).
Proof.
  intros r debug. unfold print_result. split.
  - intros v ->. reflexivity.
  - intros failure tb -> ->. destruct debug; reflexivity.
Qed.

Lemma print_result_one_line_witness :
  print_result (mkResult "/repo/a.py" (Some Demo.v7) None) false
  = [secho "/repo/a.py@7:4 NoAssertTrue: Use assert directly" "yellow"]
  /\ print_result
       (mkResult "/repo/b.py" None (Some (Demo.no_such_file, "Traceback"))) true
     = [secho "/repo/b.py: [Errno 2] No such file or directory: Traceback"
          "red"].
Proof.
  split.
  - exact (proj1 (print_result_one_line
                    (mkResult "/repo/a.py" (Some Demo.v7) None) false)
             Demo.v7 eq_refl).
  - exact (proj2 (print_result_one_line
                    (mkResult "/repo/b.py" None
                       (Some (Demo.no_such_file, "Traceback"))) true)
             Demo.no_such_file "Traceback" eq_refl eq_refl).
Defined.

(** C7 as stated fails on a result with both fields set: [error] is set,
    and the line written is the violation's, not [path: error]. *)
Lemma print_result_error_not_reported :
  error (mkResult "/repo/c.py" (Some Demo.v3)
           (Some (Demo.parse_failure, "Traceback")))
  = Some (Demo.parse_failure, "Traceback")
  /\ print_result
       (mkResult "/repo/c.py" (Some Demo.v3)
          (Some (Demo.parse_failure, "Traceback"))) false
     = [secho "/repo/c.py@3:0 UseFstring: Use f-strings" "yellow"]
  /\ print_result
       (mkResult "/repo/c.py" (Some Demo.v3)
          (Some (Demo.parse_failure, "Traceback"))) false
     <> [secho ("/repo/c.py" ++ ": " ++ exc_str Demo.parse_failure) "red"].
Proof.
  split; [reflexivity|]. split; [reflexivity|]. discriminate.
Qed.

(** C9: on a result with neither [violation] nor [error] set,
    [print_result] returns having written nothing. *)
Theorem print_result_neither_silent :
  forall (r : Result) (debug : bool),
    violation r = None ->
    error r = None ->
    print_result r debug = [].
Proof.
  intros r debug Hv He. unfold print_result. now rewrite Hv, He.
Qed.

Lemma print_result_neither_silent_witness :
  print_result (mkResult "/repo/d.py" None None) true = [].
Proof.
  apply (print_result_neither_silent (mkResult "/repo/d.py" None None) true);
    reflexivity.
Defined.

(** * Two runs on the same content *)

Section TwoRuns.
Context {LintRule : Type} (W1 W2 : Collaborators LintRule).

Lemma make_result_two_runs path violations :
  filter has_violation (yielded (_make_result W1 path violations))
  = filter has_violation (yielded (_make_result W2 path violations))
  /\ report false (_make_result W1 path violations)
     = report false (_make_result W2 path violations)
  /\ ((forall e, format_exc W1 in_make_result e
                 = format_exc W2 in_make_result e) ->
      _make_result W1 path violations = _make_result W2 path violations).
Proof.
  unfold _make_result, report.
  induction violations as [[]|v rest [IH1 [IH2 IH3]]|e]; simpl.
  - repeat split.
  - rewrite IH1, IH2. repeat split. intros Htb. now rewrite (IH3 Htb).
  - destruct e; simpl; repeat split. intros Htb. now rewrite Htb.
Qed.

(** The results with a violation are the collector's items, in its order. *)
Lemma make_result_keeps_order path violations :
  filter has_violation (yielded (_make_result W1 path violations))
  = map (violation_result path) (yielded violations).
Proof.
  unfold _make_result.
  induction violations as [[]|v rest IH|e]; simpl.
  - reflexivity.
  - now rewrite IH.
  - destruct e; reflexivity.
Qed.
End TwoRuns.

(** C8: two runs of [fixit_bytes] on the same path, content and
    configuration, in which the rule loader and the collector behave the
    same, yield the same results with a violation, in the same order (the
    order of the collector, kept by the pipeline), and the reporter writes
    the same lines for them; without [debug] it writes
    the same lines for all results.  When the tracebacks are rendered the
    same too, the two runs are the same sequence and every line is the
    same. *)
Theorem fixit_bytes_repeatable :
  forall (LintRule : Type) (W1 W2 : Collaborators LintRule)
         (path : Path) (content : FileContent) (config : Config),
    collect_rules W1 (enable config) (disable config)
    = collect_rules W2 (enable config) (disable config) ->
    (forall rules, collect_violations W1 content rules config
                   = collect_violations W2 content rules config) ->
    let run1 := fixit_bytes W1 path content config in
    let run2 := fixit_bytes W2 path content config in
    filter has_violation (yielded run1) = filter has_violation (yielded run2)
    /\ (forall rules,
          collect_rules W1 (enable config) (disable config) = Returned rules ->
          filter has_violation (yielded run1)
          = map (violation_result path)
              (yielded (collect_violations W1 content rules config)))
    /\ (forall debug,
          flat_map (fun r => print_result r debug)
            (filter has_violation (yielded run1))
          = flat_map (fun r => print_result r debug)
              (filter has_violation (yielded run2)))
    /\ report false run1 = report false run2
    /\ ((forall e, format_exc W1 in_make_result e
                   = format_exc W2 in_make_result e) ->
        run1 = run2 /\ forall debug, report debug run1 = report debug run2).
Proof.
  intros LintRule W1 W2 path content config Hrules Hcollect run1 run2.
  assert (H : filter has_violation (yielded run1)
              = filter has_violation (yielded run2)
              /\ report false run1 = report false run2
              /\ ((forall e, format_exc W1 in_make_result e
                             = format_exc W2 in_make_result e) ->
                  run1 = run2)).
  { unfold run1, run2, fixit_bytes. rewrite <- Hrules.
    destruct (collect_rules W1 (enable config) (disable config))
      as [rules|e]; simpl.
    - unfold yield_from. rewrite <- Hcollect.
      apply make_result_two_runs.
    - repeat split. }
  destruct H as [Hv [Hr Heq]].
  split; [exact Hv|].
  split.
  { intros rules Hr1. unfold run1, fixit_bytes. rewrite Hr1; simpl.
    apply make_result_keeps_order. }
  split; [intros debug; now rewrite Hv|].
  split; [exact Hr|].
  intros Htb. split; [now apply Heq|].
  intros debug. now rewrite (Heq Htb).
Qed.

Lemma fixit_bytes_repeatable_witness :
  filter has_violation
    (yielded (fixit_bytes Demo.world "/repo/c.py" [Byte.x63]
                (mkConfig ["fixit.rules"] [] [])))
  = filter has_violation
      (yielded (fixit_bytes Demo.rerun_world "/repo/c.py" [Byte.x63]
                  (mkConfig ["fixit.rules"] [] [])))
  /\ report false (fixit_bytes Demo.world "/repo/c.py" [Byte.x63]
                     (mkConfig ["fixit.rules"] [] []))
     = report false (fixit_bytes Demo.rerun_world "/repo/c.py" [Byte.x63]
                       (mkConfig ["fixit.rules"] [] [])).
Proof.
  destruct (fixit_bytes_repeatable string Demo.world Demo.rerun_world
              "/repo/c.py" [Byte.x63] (mkConfig ["fixit.rules"] [] []))
    as [Hv [_ [_ [Hr _]]]].
  - reflexivity.
  - intros rules. reflexivity.
  - split; [exact Hv | exact Hr].
Defined.

Lemma yielded_results_well_formed_witness :
  Forall (fun r => exactly_one r = true
                   /\ resolve Demo.world "c.py" = Returned (path r))
    (yielded (fixit_file Demo.world "c.py"))
  /\ List.length (yielded (fixit_file Demo.world "c.py")) = 2%nat.
Proof.
  split.
  - exact (proj1 (yielded_results_well_formed string Demo.world) "c.py").
  - reflexivity.
Defined.

(** * More on the single-file pipeline *)

Section FileTraces.
Context {LintRule : Type} (W : Collaborators LintRule).

Lemma make_result_step p v rest :
  _make_result W p (Yield v rest)
  = Yield (violation_result p v) (_make_result W p rest).
Proof. reflexivity. Qed.

(** [_make_result] is the collector's items as results, then one of three
    endings. *)
Lemma make_result_trace p violations :
  exists stop,
    _make_result W p violations
    = yields (map (violation_result p) (yielded violations)) stop
    /\ (stop = Ret tt
        \/ (exists e, stop = Yield (error_result W in_make_result p e) (Ret tt))
        \/ (exists e, is_Exception e = false /\ stop = Raise e)).
Proof.
  induction violations as [[]|v rest [stop [IH Hstop]]|e].
  - exists (Ret tt). split; [reflexivity | now left].
  - exists stop. rewrite make_result_step, IH. split; [reflexivity | exact Hstop].
  - destruct e as [failure| | |].
    + exists (Yield (error_result W in_make_result p failure) (Ret tt)).
      split; [reflexivity|]. right; left. now exists failure.
    + exists (Raise KeyboardInterrupt). split; [reflexivity|].
      right; right. now exists KeyboardInterrupt.
    + exists (Raise SystemExit). split; [reflexivity|].
      right; right. now exists SystemExit.
    + exists (Raise GeneratorExit). split; [reflexivity|].
      right; right. now exists GeneratorExit.
Qed.

(** A failure before the collector runs: caught when it is an [Exception],
    raised again otherwise. *)
Lemma early_failure_trace p (e : BaseException) :
  (exists failure,
      e = Exc failure
      /\ try_except (Raise e)
           (fun error => yield (error_result W in_fixit_file p error))
         = Yield (error_result W in_fixit_file p failure) (Ret tt))
  \/ (is_Exception e = false
      /\ try_except (Raise e)
           (fun error => yield (error_result W in_fixit_file p error))
         = Raise e).
Proof.
  destruct e as [failure| | |]; [left; now exists failure | | |];
    right; split; reflexivity.
Qed.

(** What the consumer of [fixit_file] receives: results with a violation
    only, then at most one more result. *)
Lemma fixit_file_received file :
  exists front tail,
    yielded (fixit_file W file) = (front ++ tail)%list
    /\ Forall (fun r => has_violation r = true /\ has_error r = false) front
    /\ (tail = [] \/ exists r, tail = [r]).
Proof.
  unfold fixit_file.
  destruct (resolve W file) as [p|e]; simpl;
    [|exists [], []; repeat split; auto].
  assert (Hearly : forall e,
    exists front tail,
      yielded (try_except (Raise e)
                 (fun error => yield (error_result W in_fixit_file p error)))
      = (front ++ tail)%list
      /\ Forall (fun r => has_violation r = true /\ has_error r = false) front
      /\ (tail = [] \/ exists r, tail = [r])).
  { intros e.
    destruct (early_failure_trace p e) as [[failure [_ ->]] | [_ ->]].
    - exists [], [error_result W in_fixit_file p failure].
      repeat split; eauto.
    - exists [], []. repeat split; auto. }
  destruct (read_bytes W p) as [content|e]; simpl; [|apply Hearly].
  destruct (generate_config W p) as [config|e]; simpl; [|apply Hearly].
  unfold yield_from at 1. unfold fixit_bytes.
  destruct (collect_rules W (enable config) (disable config)) as [rules|e];
    simpl; [|apply Hearly].
  unfold yield_from. rewrite try_except_make_result.
  destruct (make_result_trace p (collect_violations W content rules config))
    as [stop [-> Hstop]].
  rewrite yielded_yields.
  exists (map (violation_result p)
            (yielded (collect_violations W content rules config))),
         (yielded stop).
  split; [reflexivity|]. split.
  - apply Forall_forall. intros r Hin. apply in_map_iff in Hin.
    destruct Hin as [v [<- _]]. split; reflexivity.
  - destruct Hstop as [-> | [[e ->] | [e [_ ->]]]]; simpl; eauto.
Qed.

(** In a list of results with a violation followed by at most one more
    result, a result with an error is the last one. *)
Lemma error_is_last (front tail before after : list Result) (r : Result) :
  Forall (fun x => has_violation x = true /\ has_error x = false) front ->
  tail = [] \/ (exists x, tail = [x]) ->
  (front ++ tail)%list = (before ++ r :: after)%list ->
  has_error r = true ->
  after = [] /\ before = front.
Proof.
  intros Hfront Htail. revert before.
  induction Hfront as [|a front [_ Ha] _ IH]; intros before Heq Hr.
  - simpl in Heq. destruct Htail as [-> | [x ->]].
    + destruct before; discriminate.
    + destruct before as [|b before].
      * inversion Heq; subst. now split.
      * inversion Heq as [[Hb Hrest]]. destruct before; discriminate.
  - destruct before as [|b before].
    + inversion Heq; subst. congruence.
    + inversion Heq as [[Hb Hrest]]; subst b.
      destruct (IH before Hrest Hr) as [-> ->]. now split.
Qed.
End FileTraces.

(** X1: the whole trace of [fixit_file] on a file whose path resolves.
    Either it is the single result of the handler of [fixit_file], or it is
    one result per violation followed by one of: the normal end, the result
    of the handler of [_make_result] and the normal end, or an exception
    that is not an [Exception], raised to the caller. *)
Theorem fixit_file_shape :
  forall (LintRule : Type) (W : Collaborators LintRule) (file p : Path),
    resolve W file = Returned p ->
    (exists e,
        fixit_file W file = Yield (error_result W in_fixit_file p e) (Ret tt))
    \/ (exists vs stop,
           fixit_file W file = yields (map (violation_result p) vs) stop
           /\ (stop = Ret tt
               \/ (exists e,
                      stop = Yield (error_result W in_make_result p e) (Ret tt))
               \/ (exists e, is_Exception e = false /\ stop = Raise e))).
Proof.
  intros LintRule W file p Hres.
  assert (Hearly : forall e,
    fixit_file W file
    = try_except (Raise e)
        (fun error => yield (error_result W in_fixit_file p error)) ->
    (exists e,
        fixit_file W file = Yield (error_result W in_fixit_file p e) (Ret tt))
    \/ (exists vs stop,
           fixit_file W file = yields (map (violation_result p) vs) stop
           /\ (stop = Ret tt
               \/ (exists e,
                      stop = Yield (error_result W in_make_result p e) (Ret tt))
               \/ (exists e, is_Exception e = false /\ stop = Raise e)))).
  { intros e He.
    destruct (early_failure_trace W p e) as [[failure [_ Hc]] | [Hsig Hc]];
      rewrite Hc in He.
    - left. now exists failure.
    - right. exists [], (Raise e). split; [exact He|].
      right; right. now exists e. }
  destruct (read_bytes W p) as [content|e] eqn:Hread.
  2:{ apply (Hearly e). unfold fixit_file. rewrite Hres; simpl.
      now rewrite Hread. }
  destruct (generate_config W p) as [config|e] eqn:Hcfg.
  2:{ apply (Hearly e). unfold fixit_file. rewrite Hres; simpl.
      rewrite Hread; simpl. now rewrite Hcfg. }
  destruct (collect_rules W (enable config) (disable config))
    as [rules|e] eqn:Hrules.
  - right.
    rewrite (fixit_file_collected W _ _ _ _ _ Hres Hread Hcfg Hrules).
    destruct (make_result_trace W p (collect_violations W content rules config))
      as [stop [Htrace Hstop]].
    exists (yielded (collect_violations W content rules config)), stop.
    split; [exact Htrace | exact Hstop].
  - apply (Hearly e).
    rewrite (fixit_file_readable W _ _ _ _ Hres Hread Hcfg).
    unfold fixit_bytes. now rewrite Hrules.
Qed.

Lemma fixit_file_shape_witness :
  (exists e,
      fixit_file Demo.world "c.py"
      = Yield (error_result Demo.world in_fixit_file "/repo/c.py" e) (Ret tt))
  \/ (exists vs stop,
         fixit_file Demo.world "c.py"
         = yields (map (violation_result "/repo/c.py") vs) stop
         /\ (stop = Ret tt
             \/ (exists e,
                    stop = Yield (error_result Demo.world in_make_result
                                    "/repo/c.py" e) (Ret tt))
             \/ (exists e, is_Exception e = false /\ stop = Raise e))).
Proof.
  apply (fixit_file_shape string Demo.world "c.py" "/repo/c.py").
  reflexivity.
Defined.

(** X2: a result with [error] set is the last thing [fixit_file] yields,
    and every result before it has a violation and no error; so a file has
    at most one result with an error. *)
Theorem nothing_after_an_error :
  forall (LintRule : Type) (W : Collaborators LintRule) (file : Path)
         (before after : list Result) (r : Result),
    yielded (fixit_file W file) = (before ++ r :: after)%list ->
    has_error r = true ->
    after = []
    /\ Forall (fun x => has_violation x = true /\ has_error x = false) before.
Proof.
  intros LintRule W file before after r Hsplit Hr.
  destruct (fixit_file_received W file) as [front [tail [Heq [Hfront Htail]]]].
  rewrite Heq in Hsplit.
  destruct (error_is_last front tail before after r Hfront Htail Hsplit Hr)
    as [Hafter Hbefore].
  split; [exact Hafter | now rewrite Hbefore].
Qed.

Lemma nothing_after_an_error_witness :
  (@nil Result) = []
  /\ Forall (fun x => has_violation x = true /\ has_error x = false)
       [violation_result "/repo/c.py" Demo.v3].
Proof.
  apply (nothing_after_an_error string Demo.world "c.py"
           [violation_result "/repo/c.py" Demo.v3] []
           (error_result Demo.world in_make_result "/repo/c.py"
              Demo.parse_failure));
    reflexivity.
Defined.

Lemma list_yields_raise {Y R : Type} (items : list Y) (e : BaseException) :
  list_ (yields items (@Raise Y R e)) = Raised e.
Proof.
  induction items as [|y items IH]; simpl; [reflexivity|].
  fold (yields items (@Raise Y R e)). now rewrite IH.
Qed.

(** X3: an exception of the collector that is not an [Exception]
    (KeyboardInterrupt, SystemExit, GeneratorExit) is not turned into a
    result: [_make_result] and [fixit_file] yield the results of the
    violations found so far and raise it, and [list(fixit_file(path))] in
    a worker raises it without returning those results. *)
Theorem signals_pass_through :
  forall (LintRule : Type) (W : Collaborators LintRule)
         (file p : Path) (content : FileContent) (config : Config)
         (rules : list LintRule) (vs : list LintViolation) (e : BaseException),
    is_Exception e = false ->
    resolve W file = Returned p ->
    read_bytes W p = Returned content ->
    generate_config W p = Returned config ->
    collect_rules W (enable config) (disable config) = Returned rules ->
    collect_violations W content rules config = yields vs (Raise e) ->
    _make_result W p (yields vs (Raise e))
    = yields (map (violation_result p) vs) (Raise e)
    /\ fixit_file W file = yields (map (violation_result p) vs) (Raise e)
    /\ yielded (fixit_file W file) = map (violation_result p) vs
    /\ _fixit_file_wrapper W file = Raised e.
Proof.
  intros LintRule W file p content config rules vs e
         Hsig Hres Hread Hcfg Hrules Hcollect.
  assert (Hmake : _make_result W p (yields vs (Raise e))
                  = yields (map (violation_result p) vs) (Raise e)).
  { rewrite make_result_yields. f_equal.
    destruct e; [discriminate | reflexivity..]. }
  assert (Hfile : fixit_file W file
                  = yields (map (violation_result p) vs) (Raise e)).
  { rewrite (fixit_file_collected W _ _ _ _ _ Hres Hread Hcfg Hrules).
    now rewrite Hcollect. }
  split; [exact Hmake|]. split; [exact Hfile|]. split.
  - rewrite Hfile, yielded_yields. apply app_nil_r.
  - unfold _fixit_file_wrapper. rewrite Hfile. apply list_yields_raise.
Qed.

Lemma signals_pass_through_witness :
  fixit_file Scenes.world "k.py"
  = Yield (violation_result "/repo/k.py" Demo.v3) (Raise KeyboardInterrupt)
  /\ _fixit_file_wrapper Scenes.world "k.py" = Raised KeyboardInterrupt.
Proof.
  destruct (signals_pass_through string Scenes.world "k.py" "/repo/k.py"
              [Byte.x6b] (mkConfig ["fixit.rules"] [] []) ["fixit.rules"]
              [Demo.v3] KeyboardInterrupt)
    as [_ [Hfile [_ Hwrap]]]; try reflexivity.
  split; [exact Hfile | exact Hwrap].
Defined.

(** X4: on a file that is read and configured, [fixit_file] is
    [fixit_bytes] on the resolved path, the content and the configuration,
    unless [collect_rules] raises an [Exception]: the handler of
    [fixit_file] adds nothing to what [fixit_bytes] yields. *)
Theorem fixit_file_is_fixit_bytes :
  forall (LintRule : Type) (W : Collaborators LintRule)
         (file p : Path) (content : FileContent) (config : Config),
    resolve W file = Returned p ->
    read_bytes W p = Returned content ->
    generate_config W p = Returned config ->
    (forall failure,
        collect_rules W (enable config) (disable config)
        <> Raised (Exc failure)) ->
    fixit_file W file = fixit_bytes W p content config.
Proof.
  intros LintRule W file p content config Hres Hread Hcfg Hrules.
  rewrite (fixit_file_readable W _ _ _ _ Hres Hread Hcfg).
  unfold fixit_bytes.
  destruct (collect_rules W (enable config) (disable config)) as [rules|e];
    simpl.
  - unfold yield_from. apply try_except_make_result.
  - destruct e as [failure| | |]; try reflexivity.
    now elim (Hrules failure).
Qed.

Lemma fixit_file_is_fixit_bytes_witness :
  fixit_file Demo.world "c.py"
  = fixit_bytes Demo.world "/repo/c.py" [Byte.x63]
      (mkConfig ["fixit.rules"] [] []).
Proof.
  apply (fixit_file_is_fixit_bytes string Demo.world "c.py" "/repo/c.py"
           [Byte.x63] (mkConfig ["fixit.rules"] [] []));
    try reflexivity.
  intros failure. discriminate.
Defined.

(** * More on several files *)

Section RunShape.
Context {LintRule : Type} (W : Collaborators LintRule).

(** [fixit_paths] once the paths are expanded. *)
Lemma fixit_paths_shape paths expanded :
  fair_schedule W ->
  extend_walks W paths [] = Returned expanded ->
  fixit_paths W paths
  = match expanded with
    | [only] => fixit_file W only
    | _ => flattened (map (_fixit_file_wrapper W) (schedule W expanded))
    end.
Proof.
  intros Hfair Hexp. destruct paths as [|p0 paths0].
  - simpl in Hexp. inversion Hexp; subst expanded. simpl.
    now rewrite (Permutation_nil (Permutation_sym (Hfair []))).
  - now apply fixit_paths_expanded.
Qed.

(** The flattened stream up to the first worker that raises. *)
Lemma flattened_until_raise done bad rest e :
  Forall (fun p => completes (fixit_file W p) = true) done ->
  _fixit_file_wrapper W bad = Raised e ->
  flattened (map (_fixit_file_wrapper W) (done ++ bad :: rest))
  = yields (List.concat (map (fun p => yielded (fixit_file W p)) done))
      (Raise e).
Proof.
  intros Hdone Hbad.
  induction Hdone as [|p done Hp _ IH]; simpl.
  - now rewrite Hbad.
  - unfold _fixit_file_wrapper at 1. rewrite (completes_list_ _ Hp).
    now rewrite IH, yields_app.
Qed.

Lemma Forall_flattened (P : Result -> Prop) order :
  (forall p, Forall P (yielded (fixit_file W p))) ->
  Forall P (yielded (flattened (map (_fixit_file_wrapper W) order))).
Proof.
  intros Hfile.
  induction order as [|p rest IH]; simpl; [constructor|].
  destruct (_fixit_file_wrapper W p) as [results|e] eqn:Hw; [|constructor].
  rewrite yielded_yields. apply Forall_app. split; [|exact IH].
  rewrite <- (list_returned_yielded _ _ Hw). apply Hfile.
Qed.

(** Every result of [fixit_paths] has exactly one field set, whatever the
    order of the workers. *)
Lemma fixit_paths_exactly_one paths :
  Forall (fun r => exactly_one r = true) (yielded (fixit_paths W paths)).
Proof.
  assert (Hfile : forall p,
             Forall (fun r => exactly_one r = true)
               (yielded (fixit_file W p))).
  { intros p. eapply Forall_impl; [|apply fixit_file_items].
    simpl. now intros r [H _]. }
  unfold fixit_paths. destruct paths as [|p0 paths0]; [constructor|].
  destruct (extend_walks W (p0 :: paths0) []) as [expanded|e];
    simpl; [|constructor].
  unfold run_iter, yield_from.
  destruct expanded as [|only [|second rest]];
    try apply Hfile; rewrite workers_flattened; now apply Forall_flattened.
Qed.
End RunShape.

(** X5: with several files, the first worker whose [list(fixit_file(path))]
    raises ends the whole run: [fixit_paths] yields the results of the
    files handed back before it and raises the exception; nothing of the
    failing file and nothing of the files after it is yielded. *)
Theorem worker_failure_aborts_run :
  forall (LintRule : Type) (W : Collaborators LintRule)
         (paths expanded done rest : list Path) (bad : Path)
         (e : BaseException),
    fair_schedule W ->
    extend_walks W paths [] = Returned expanded ->
    List.length expanded <> 1%nat ->
    schedule W expanded = (done ++ bad :: rest)%list ->
    Forall (fun p => completes (fixit_file W p) = true) done ->
    _fixit_file_wrapper W bad = Raised e ->
    fixit_paths W paths
    = yields (List.concat (map (fun p => yielded (fixit_file W p)) done))
        (Raise e).
Proof.
  intros LintRule W paths expanded done rest bad e
         Hfair Hexp Hlen Hsched Hdone Hbad.
  rewrite (fixit_paths_shape W _ _ Hfair Hexp).
  assert (Hflat : match expanded with
                  | [only] => fixit_file W only
                  | _ => flattened (map (_fixit_file_wrapper W)
                                      (schedule W expanded))
                  end
                  = flattened (map (_fixit_file_wrapper W)
                                 (schedule W expanded))).
  { destruct expanded as [|only [|second more]]; try reflexivity.
    now elim Hlen. }
  rewrite Hflat, Hsched. now apply flattened_until_raise.
Qed.

Lemma scenes_world_fair : fair_schedule Scenes.world.
Proof. intros paths. apply Permutation_refl. Qed.

Lemma worker_failure_aborts_run_witness :
  fixit_paths Scenes.world ["a.py"; "k.py"; "d.py"]
  = yields (yielded (fixit_file Scenes.world "a.py"))
      (Raise KeyboardInterrupt)
  /\ fixit_paths Scenes.world ["a.py"; "loop.py"; "d.py"]
     = yields (yielded (fixit_file Scenes.world "a.py"))
         (Raise (Exc Scenes.symlink_loop)).
Proof.
  split.
  - apply (worker_failure_aborts_run string Scenes.world
             ["a.py"; "k.py"; "d.py"] ["a.py"; "k.py"; "d.py"]
             ["a.py"] ["d.py"] "k.py" KeyboardInterrupt);
      try reflexivity.
    + exact scenes_world_fair.
    + simpl. discriminate.
    + repeat constructor.
  - apply (worker_failure_aborts_run string Scenes.world
             ["a.py"; "loop.py"; "d.py"] ["a.py"; "loop.py"; "d.py"]
             ["a.py"] ["d.py"] "loop.py" (Exc Scenes.symlink_loop));
      try reflexivity.
    + exact scenes_world_fair.
    + simpl. discriminate.
    + repeat constructor.
Defined.

(** X6: when the path of a file resolves and reading the file, resolving
    its configuration, loading the rules and collecting raise nothing but
    [Exception]s, [fixit_file] ends normally, every failure having become a
    result; [list(fixit_file(path))] in [_fixit_file_wrapper] then returns
    the list of those results, and [fixit_paths] on paths that expand to
    this one file ends normally too. *)
Theorem file_failures_become_results :
  forall (LintRule : Type) (W : Collaborators LintRule) (file p : Path),
    resolve W file = Returned p ->
    (forall e, read_bytes W p = Raised e -> is_Exception e = true) ->
    (forall e, generate_config W p = Raised e -> is_Exception e = true) ->
    (forall config e,
        collect_rules W (enable config) (disable config) = Raised e ->
        is_Exception e = true) ->
    (forall content rules config,
        ends_in_Exception (collect_violations W content rules config) = true) ->
    completes (fixit_file W file) = true
    /\ _fixit_file_wrapper W file = Returned (yielded (fixit_file W file))
    /\ (forall paths,
           extend_walks W paths [] = Returned [file] ->
           completes (fixit_paths W paths) = true).
Proof.
  intros LintRule W file p Hres Hread Hcfg Hrules Hcollect.
  assert (Hfile : completes (fixit_file W file) = true).
  { now apply (fixit_file_completes W file p). }
  split; [exact Hfile|]. split.
  - unfold _fixit_file_wrapper. now apply completes_list_.
  - intros paths Hexp. destruct paths as [|p0 paths0].
    + simpl in Hexp. discriminate.
    + now rewrite (fixit_paths_expanded W _ _ _ Hexp).
Qed.

Lemma demo_read_Exception p e :
  read_bytes Demo.world p = Raised e -> is_Exception e = true.
Proof.
  simpl. unfold Demo.demo_read.
  destruct (String.eqb p "/repo/b.py"); [intros H; now inversion H|].
  destruct (String.eqb p "/repo/a.py"); [discriminate|].
  destruct (String.eqb p "/repo/c.py"); discriminate.
Qed.

Lemma demo_config_Exception p e :
  generate_config Demo.world p = Raised e -> is_Exception e = true.
Proof.
  simpl. unfold Demo.demo_config.
  destruct (String.eqb p "/repo/e.py"); [intros H; now inversion H|].
  destruct (String.eqb p "/repo/f.py"); discriminate.
Qed.

Lemma demo_rules_cases enabled disabled :
  Demo.demo_rules enabled disabled = Returned enabled
  \/ Demo.demo_rules enabled disabled = Raised (Exc Demo.bad_rule).
Proof.
  unfold Demo.demo_rules.
  repeat match goal with
         | |- context [match ?x with _ => _ end] => destruct x
         end; auto.
Qed.

Lemma demo_rules_Exception enabled disabled e :
  collect_rules Demo.world enabled disabled = Raised e -> is_Exception e = true.
Proof.
  simpl. destruct (demo_rules_cases enabled disabled) as [-> | ->].
  - discriminate.
  - intros H. now inversion H.
Qed.

Lemma demo_collect_Exception content rules config :
  ends_in_Exception (collect_violations Demo.world content rules config) = true.
Proof.
  simpl. unfold Demo.demo_collect.
  destruct content as [|b [|b' rest]]; try reflexivity; destruct b; reflexivity.
Qed.

Lemma file_failures_become_results_witness :
  completes (fixit_file Demo.world "c.py") = true
  /\ _fixit_file_wrapper Demo.world "c.py"
     = Returned (yielded (fixit_file Demo.world "c.py"))
  /\ completes (fixit_paths Demo.world ["c.py"]) = true.
Proof.
  destruct (file_failures_become_results string Demo.world "c.py" "/repo/c.py")
    as [Hfile [Hwrap Hpaths]].
  - reflexivity.
  - exact (demo_read_Exception "/repo/c.py").
  - exact (demo_config_Exception "/repo/c.py").
  - intros config e. apply demo_rules_Exception.
  - exact demo_collect_Exception.
  - split; [exact Hfile|]. split; [exact Hwrap|].
    apply Hpaths. reflexivity.
Defined.

(** * Expanding the paths *)

Section Expansion.
Context {LintRule : Type} (W : Collaborators LintRule).

Lemma extend_walks_raises before root after found e acc :
  Forall (fun p => completes (walk W p) = true) before ->
  walk W root = yields found (Raise e) ->
  extend_walks W (before ++ root :: after) acc = Raised e.
Proof.
  intros Hbefore Hroot. revert acc.
  induction Hbefore as [|p before Hp _ IH]; intros acc; simpl.
  - now rewrite Hroot, list_yields_raise.
  - rewrite (completes_list_ _ Hp). apply IH.
Qed.

Lemma extend_walks_reschedule order paths acc :
  extend_walks (reschedule W order) paths acc = extend_walks W paths acc.
Proof.
  revert acc. induction paths as [|p paths IH]; intros acc; simpl.
  - reflexivity.
  - destruct (list_ (walk W p)); [apply IH | reflexivity].
Qed.
End Expansion.

(** X7: when every walk ends normally, the expanded list is what the
    walks found, root after root in the order of the given paths, appended
    to what was there: nothing is sorted and nothing is removed, so a file
    found from two roots is in the list twice. *)
Theorem expansion_concatenates_walks :
  forall (LintRule : Type) (W : Collaborators LintRule)
         (paths acc : list Path),
    Forall (fun p => completes (walk W p) = true) paths ->
    extend_walks W paths acc
    = Returned (acc ++ List.concat (map (fun p => yielded (walk W p)) paths))%list.
Proof.
  intros LintRule W paths. induction paths as [|p paths IH]; intros acc Hall.
  - simpl. now rewrite app_nil_r.
  - inversion Hall as [|p' paths' Hp Hrest]; subst. simpl.
    rewrite (completes_list_ _ Hp), (IH _ Hrest).
    now rewrite <- app_assoc.
Qed.

Lemma expansion_concatenates_walks_witness :
  extend_walks Scenes.world ["pkg"; "a.py"] []
  = Returned ["a.py"; "d.py"; "a.py"].
Proof.
  apply (expansion_concatenates_walks string Scenes.world ["pkg"; "a.py"] []).
  repeat constructor.
Defined.

(** X8: when the walk of one of the given paths raises, after the walks
    before it ended normally and whatever it had found itself,
    [fixit_paths] raises that exception before any file is linted: it
    yields no result, also none for the files the earlier walks found. *)
Theorem walk_failure_aborts_run :
  forall (LintRule : Type) (W : Collaborators LintRule)
         (before after found : list Path) (root : Path) (e : BaseException),
    Forall (fun p => completes (walk W p) = true) before ->
    walk W root = yields found (Raise e) ->
    fixit_paths W (before ++ root :: after) = Raise e.
Proof.
  intros LintRule W before after found root e Hbefore Hroot.
  assert (Hexp : extend_walks W (before ++ root :: after) [] = Raised e).
  { now apply extend_walks_raises with (found := found). }
  unfold fixit_paths.
  destruct (before ++ root :: after)%list as [|p0 paths0] eqn:Hpaths.
  - destruct before; discriminate.
  - now rewrite Hexp.
Qed.

Lemma walk_failure_aborts_run_witness :
  fixit_paths Scenes.world ["a.py"; "locked"; "d.py"]
  = Raise (Exc Scenes.permission_denied).
Proof.
  apply (walk_failure_aborts_run string Scenes.world
           ["a.py"] ["d.py"] ["a.py"] "locked" (Exc Scenes.permission_denied)).
  - repeat constructor.
  - reflexivity.
Defined.

(** X9: the order in which the workers finish changes the order of the
    output only: with every file's sequence ending normally, the results
    [fixit_paths] yields under two orders of completion are the same up to
    a permutation. *)
Theorem schedule_changes_order_only :
  forall (LintRule : Type) (W : Collaborators LintRule)
         (order : list Path -> list Path) (paths expanded : list Path),
    fair_schedule W ->
    fair_schedule (reschedule W order) ->
    extend_walks W paths [] = Returned expanded ->
    Forall (fun p => completes (fixit_file W p) = true) expanded ->
    Permutation (yielded (fixit_paths W paths))
      (yielded (fixit_paths (reschedule W order) paths)).
Proof.
  intros LintRule W order paths expanded Hfair Hfair' Hexp Hall.
  assert (Hexp' : extend_walks (reschedule W order) paths [] = Returned expanded).
  { now rewrite extend_walks_reschedule. }
  rewrite (fixit_paths_shape W _ _ Hfair Hexp).
  rewrite (fixit_paths_shape (reschedule W order) _ _ Hfair' Hexp').
  assert (Hgroups : forall (V : Collaborators LintRule) (l : list Path),
             (forall p, fixit_file V p = fixit_file W p) ->
             Permutation l expanded ->
             yielded (flattened (map (_fixit_file_wrapper V) l))
             = flat_map (fun p => yielded (fixit_file W p)) l).
  { intros V l Hsame Hperm.
    assert (HallV : Forall (fun p => completes (fixit_file V p) = true) l).
    { rewrite Forall_forall in *. intros p Hin. rewrite Hsame. apply Hall.
      eapply Permutation_in; [exact Hperm | exact Hin]. }
    destruct (flattened_sequential V _ HallV) as [-> ->].
    rewrite flat_map_concat_map. f_equal.
    apply map_ext. intros p. now rewrite Hsame. }
  destruct expanded as [|only [|second rest]].
  - rewrite (Hgroups W _ (fun p => eq_refl) (Hfair [])).
    rewrite (Hgroups (reschedule W order) _ (fun p => eq_refl) (Hfair' [])).
    apply Permutation_flat_map.
    exact (Permutation_trans (Hfair []) (Permutation_sym (Hfair' []))).
  - apply Permutation_refl.
  - rewrite (Hgroups W _ (fun p => eq_refl) (Hfair _)).
    rewrite (Hgroups (reschedule W order) _ (fun p => eq_refl) (Hfair' _)).
    apply Permutation_flat_map.
    exact (Permutation_trans (Hfair _) (Permutation_sym (Hfair' _))).
Qed.

Lemma schedule_changes_order_only_witness :
  Permutation
    (yielded (fixit_paths Demo.world ["a.py"; "c.py"; "d.py"]))
    (yielded (fixit_paths (reschedule Demo.world (fun l => l))
                ["a.py"; "c.py"; "d.py"])).
Proof.
  apply (schedule_changes_order_only string Demo.world (fun l => l)
           ["a.py"; "c.py"; "d.py"] ["a.py"; "c.py"; "d.py"]).
  - exact demo_world_fair.
  - intros l. apply Permutation_refl.
  - reflexivity.
  - repeat constructor.
Defined.

(** * More on the reporter *)

Lemma report_one_line_each (debug : bool) (results : Gen Result unit) :
  Forall (fun r => exactly_one r = true) (yielded results) ->
  List.length (report debug results) = List.length (yielded results).
Proof.
  unfold report. induction 1 as [|r rs Hr _ IH]; simpl; [reflexivity|].
  rewrite length_app, IH. f_equal.
  unfold exactly_one in Hr. unfold print_result.
  destruct (violation r); [reflexivity|].
  destruct (error r) as [[failure tb]|]; [|discriminate].
  destruct debug; reflexivity.
Qed.

Lemma string_append_assoc (s1 s2 s3 : string) :
  ((s1 ++ s2) ++ s3 = s1 ++ (s2 ++ s3))%string.
Proof.
  induction s1 as [|c s1 IH]; simpl; [reflexivity|].
  now rewrite IH.
Qed.

Lemma string_append_nil (s : string) : (s ++ "")%string = s.
Proof.
  induction s as [|c s IH]; simpl; [reflexivity|].
  now rewrite IH.
Qed.

(** X10: printing everything [fixit_file] or [fixit_paths] yields writes
    exactly one line per result, with [debug] or without: no result of the
    pipeline is printed as nothing or as two lines. *)
Theorem one_line_per_result :
  forall (LintRule : Type) (W : Collaborators LintRule) (debug : bool),
    (forall file,
        List.length (report debug (fixit_file W file))
        = List.length (yielded (fixit_file W file)))
    /\ (forall paths,
           List.length (report debug (fixit_paths W paths))
           = List.length (yielded (fixit_paths W paths))).
Proof.
  intros LintRule W debug. split.
  - intros file. apply report_one_line_each.
    eapply Forall_impl; [|apply fixit_file_items].
    simpl. now intros r [H _].
  - intros paths. apply report_one_line_each.
    apply fixit_paths_exactly_one.
Qed.

(** X11: [debug] changes the lines of errors only, and only by adding to
    them: for every result the line written with [debug] has the same
    colour as the line written without it and starts with its text, and for
    a result with a violation the two are the same line. *)
Theorem debug_only_extends_lines :
  forall (r : Result),
    Forall2 (fun quiet verbose =>
               fg verbose = fg quiet
               /\ exists more, text verbose = (text quiet ++ more)%string)
      (print_result r false) (print_result r true)
    /\ (forall v, violation r = Some v ->
          print_result r true = print_result r false).
Proof.
  intros r. unfold print_result. split.
  - destruct (violation r) as [v|].
    + constructor; [|constructor]. split; [reflexivity|].
      exists ""%string. cbn [text]. now rewrite string_append_nil.
    + destruct (error r) as [[failure tb]|]; [|constructor].
      constructor; [|constructor]. split; [reflexivity|].
      exists (": " ++ tb)%string. cbn [text].
      now rewrite !string_append_assoc.
  - intros v ->. reflexivity.
Qed.

Lemma debug_only_extends_lines_witness :
  print_result (violation_result "/repo/a.py" Demo.v7) true
  = print_result (violation_result "/repo/a.py" Demo.v7) false.
Proof.
  exact (proj2 (debug_only_extends_lines
                  (violation_result "/repo/a.py" Demo.v7))
           Demo.v7 eq_refl).
Defined.

(** * The path given to [fixit_bytes] *)

Lemma make_result_relabel {LintRule : Type} (W : Collaborators LintRule)
  (p q : Path) (violations : Gen LintViolation unit) :
  yielded (_make_result W q violations)
  = map (fun r => mkResult q (violation r) (error r))
      (yielded (_make_result W p violations))
  /\ completes (_make_result W q violations)
     = completes (_make_result W p violations).
Proof.
  induction violations as [[]|v rest [IH1 IH2]|e].
  - split; reflexivity.
  - rewrite !make_result_step. simpl. rewrite IH1. split; [reflexivity|exact IH2].
  - destruct e; split; reflexivity.
Qed.

(** X12: [fixit_bytes] uses its path as a label only: linting the same
    content with the same configuration under another path yields the same
    violations and the same error, in the same order, with the other path
    in every result, and ends the same way. *)
Theorem fixit_bytes_path_is_a_label :
  forall (LintRule : Type) (W : Collaborators LintRule)
         (p q : Path) (content : FileContent) (config : Config),
    yielded (fixit_bytes W q content config)
    = map (fun r => mkResult q (violation r) (error r))
        (yielded (fixit_bytes W p content config))
    /\ completes (fixit_bytes W q content config)
       = completes (fixit_bytes W p content config).
Proof.
  intros LintRule W p q content config. unfold fixit_bytes.
  destruct (collect_rules W (enable config) (disable config)) as [rules|e];
    simpl.
  - unfold yield_from. apply make_result_relabel.
  - split; reflexivity.
Qed.
